(** * convex/addUser.js: the [me], [list] and [put] handlers

    A shallow embedding of the three Convex handlers of
    [convex/addUser.js] together with the part of the Convex runtime they
    call ([auth.getUserIdentity], [db.query(..).filter(..).unique()],
    [.collect()], [db.patch], [db.insert], [console.log]), and the proofs
    of the properties the specification states about them. *)

From stdpp Require Import base decidable option numbers strings list.

Set Default Proof Using "Type".
Open Scope string_scope.
Open Scope list_scope.

(** ** Data model *)

(** Document identifiers are opaque to the handlers: they are only read
    from a row ([user._id]), handed back to [db.patch] and returned. *)
Definition Id := nat.

(** The identity reported by the auth provider.  [tokenIdentifier] is
    always present; [name] is an optional claim ([None] is JavaScript's
    [undefined]). *)
Record Identity := mkIdentity {
  id_tokenIdentifier : string;
  id_name : option string;
}.

(** A row of the "users" table, as the queries return it. *)
Record User := mkUser {
  _id : Id;
  name : option string;
  tokenIdentifier : string;
}.

(** The database: the "users" table, oldest row first (the order in which
    [collect] yields the rows). *)
Record Db := mkDb {
  users : list User;
}.

Global Instance Identity_eq_dec : EqDecision Identity.
Proof. solve_decision. Defined.
Global Instance User_eq_dec : EqDecision User.
Proof. solve_decision. Defined.
Global Instance Db_eq_dec : EqDecision Db.
Proof. solve_decision. Defined.

(** ** Effects of a handler run *)

Inductive Error :=
  | JsError (message : string)   (* [throw new Error(message)] *)
  | NotUnique                    (* [unique()] found more than one row *)
  | NoSuchDocument (i : Id).     (* [db.patch] on an id that is not stored *)

Inductive Effect :=
  | Patched (i : Id) (new_name : option string)
  | Inserted (row : User)
  | Logged (identity : Identity).

Inductive Outcome (A : Type) :=
  | Returned (a : A)
  | Thrown (e : Error).
Arguments Returned {A} a.
Arguments Thrown {A} e.

(** What one run of a handler leaves behind: its outcome, the database
    after it, and the writes and log lines it performed, in order. *)
Record Run (A : Type) := mkRun {
  outcome : Outcome A;
  db_after : Db;
  effects : list Effect;
}.
Arguments mkRun {A} _ _ _.
Arguments outcome {A} _.
Arguments db_after {A} _.
Arguments effects {A} _.

Definition Handler (A : Type) : Type := Db -> Run A.

Definition handler_ret {A} (a : A) : Handler A :=
  fun db => mkRun (Returned a) db [].

Definition handler_bind {A B} (k : A -> Handler B) (m : Handler A) : Handler B :=
  fun db =>
    let r := m db in
    match outcome r with
    | Thrown e => mkRun (Thrown e) (db_after r) (effects r)
    | Returned a =>
        let r' := k a (db_after r) in
        mkRun (outcome r') (db_after r') (effects r ++ effects r')
    end.

Global Instance Handler_ret : MRet Handler := @handler_ret.
Global Instance Handler_bind : MBind Handler := @handler_bind.

Definition throw {A} (e : Error) : Handler A :=
  fun db => mkRun (Thrown e) db [].

Definition is_write (e : Effect) : bool :=
  match e with
  | Patched _ _ | Inserted _ => true
  | Logged _ => false
  end.

Definition writes (es : list Effect) : list Effect :=
  List.filter is_write es.

(** ** The runtime the handlers call *)

(** [auth.getUserIdentity()]: the caller's identity, or [null]. *)
Definition getUserIdentity (auth : option Identity) : Handler (option Identity) :=
  mret auth.

(** [console.log(identity)]. *)
Definition console_log (identity : Identity) : Handler unit :=
  fun db => mkRun (Returned tt) db [Logged identity].

(** A query over the "users" table is the predicate its [filter]s have
    accumulated; it reads the table when [unique] or [collect] runs it. *)
Record Query := mkQuery {
  q_pred : User -> bool;
}.

Definition query_users : Query := mkQuery (fun _ => true).

Definition q_filter (p : User -> bool) (q : Query) : Query :=
  mkQuery (fun u => q_pred q u && p u).

(** [q.eq(q.field('tokenIdentifier'), t)]. *)
Definition eq_tokenIdentifier (t : string) (u : User) : bool :=
  bool_decide (tokenIdentifier u = t).

Definition results (q : Query) (db : Db) : list User :=
  List.filter (q_pred q) (users db).

(** [.collect()]: every row the query selects. *)
Definition collect (q : Query) : Handler (list User) :=
  fun db => mkRun (Returned (results q db)) db [].

(** [.unique()]: [null] when no row is selected, the row when there is
    one, and an exception when there are several. *)
Definition unique (q : Query) : Handler (option User) :=
  fun db =>
    match results q db with
    | [] => mkRun (Returned None) db []
    | [u] => mkRun (Returned (Some u)) db []
    | _ :: _ :: _ => mkRun (Thrown NotUnique) db []
    end.

Definition set_name (n : option string) (u : User) : User :=
  mkUser (_id u) n (tokenIdentifier u).

Definition has_id (i : Id) (u : User) : bool := bool_decide (_id u = i).

(** [db.patch(i, { name: n })]: the document with id [i] gets the new
    [name]; an id that is not stored is an exception. *)
Definition patch_rows (i : Id) (n : option string) (rows : list User) : list User :=
  List.map (fun u => if has_id i u then set_name n u else u) rows.

Definition patch (i : Id) (n : option string) : Handler unit :=
  fun db =>
    if existsb (has_id i) (users db)
    then mkRun (Returned tt) (mkDb (patch_rows i n (users db))) [Patched i n]
    else mkRun (Thrown (NoSuchDocument i)) db [].

(** The id given to a new document: one that no stored row has. *)
Definition fresh_id (db : Db) : Id := S (max_list (_id <$> users db)).

(** [db.insert("users", { name: n, tokenIdentifier: t })]: the new row is
    stored after the existing ones and its id is returned. *)
Definition insert (n : option string) (t : string) : Handler Id :=
  fun db =>
    let row := mkUser (fresh_id db) n t in
    mkRun (Returned (_id row)) (mkDb (users db ++ [row])) [Inserted row].

(** [query(handler)]: the handler runs on a read-only view of the
    database, so the database after the call is the one before it. *)
Definition query {A} (h : option Identity -> Handler A)
    (auth : option Identity) : Handler A :=
  fun db =>
    let r := h auth db in
    mkRun (outcome r) db (effects r).

(** [mutation(handler)]: the handler runs in a transaction, committed when
    it returns and rolled back when it throws. *)
Definition mutation {A} (h : option Identity -> Handler A)
    (auth : option Identity) : Handler A :=
  fun db =>
    let r := h auth db in
    match outcome r with
    | Returned _ => r
    | Thrown e => mkRun (Thrown e) db (effects r)
    end.

(** ** The handlers of convex/addUser.js *)

(** The exports keep their names, [addUser.me], [addUser.list] and
    [addUser.put]; the function each one wraps is its [_handler]. *)
Module addUser.

(** [me]: the caller's identity, logged and returned; an exception when
    there is none. *)
Definition me_handler (auth : option Identity) : Handler Identity :=
  identity ← getUserIdentity auth;
  match identity with
  | None => throw (JsError "Unauthenticated call to mutation")
  | Some identity =>
      console_log identity;;
      mret identity
  end.

(** [list]: [db.query("users").collect()]; [auth] is bound and not used. *)
Definition list_handler (auth : option Identity) : Handler (list User) :=
  collect query_users.

(** [put]: look the caller up by [tokenIdentifier]; patch the name of the
    row found when it differs ([!=], which on two optional strings is
    plain inequality), or insert a row when none is found; return the
    row's id. *)
Definition put_handler (auth : option Identity) : Handler Id :=
  identity ← getUserIdentity auth;
  match identity with
  | None => throw (JsError "Called storeUser without authentication present")
  | Some identity =>
      user ← unique (q_filter (eq_tokenIdentifier (id_tokenIdentifier identity))
                              query_users);
      match user with
      | Some user =>
          (if negb (bool_decide (name user = id_name identity))
           then patch (_id user) (id_name identity)
           else mret tt);;
          mret (_id user)
      | None =>
          insert (id_name identity) (id_tokenIdentifier identity)
      end
  end.

Definition me : option Identity -> Handler Identity := query me_handler.
Definition list : option Identity -> Handler (list User) := query list_handler.
Definition put : option Identity -> Handler Id := mutation put_handler.

End addUser.

(** ** Serving calls one after the other *)

Inductive Call := CallMe | CallList | CallPut.

Record Request := mkRequest {
  req_call : Call;
  req_auth : option Identity;
}.

Inductive Response :=
  | MeResponse (o : Outcome Identity)
  | ListResponse (o : Outcome (list User))
  | PutResponse (o : Outcome Id).

Definition succeeded (r : Response) : bool :=
  match r with
  | MeResponse (Returned _) | ListResponse (Returned _)
  | PutResponse (Returned _) => true
  | _ => false
  end.

Definition serve (rq : Request) (db : Db) : Response * Db :=
  match req_call rq with
  | CallMe =>
      let r := addUser.me (req_auth rq) db in (MeResponse (outcome r), db_after r)
  | CallList =>
      let r := addUser.list (req_auth rq) db in (ListResponse (outcome r), db_after r)
  | CallPut =>
      let r := addUser.put (req_auth rq) db in (PutResponse (outcome r), db_after r)
  end.

Fixpoint serve_all (rqs : list Request) (db : Db) : list Response * Db :=
  match rqs with
  | [] => ([], db)
  | rq :: rqs' =>
      let (r, db1) := serve rq db in
      let (rs, db2) := serve_all rqs' db1 in
      (r :: rs, db2)
  end.

Definition put_as (identity : Identity) : Request :=
  mkRequest CallPut (Some identity).

Definition empty_db : Db := mkDb [].

(** ** The properties the specification talks about *)

(** The stored rows whose [tokenIdentifier] is [t]. *)
Definition rows_with_token (t : string) (db : Db) : list User :=
  List.filter (eq_tokenIdentifier t) (users db).

(** The stored rows with another [tokenIdentifier] than [t]. *)
Definition rows_of_others (t : string) (db : Db) : list User :=
  List.filter (fun u => negb (eq_tokenIdentifier t u)) (users db).

Global Arguments rows_with_token : simpl never.
Global Arguments rows_of_others : simpl never.

(** "At most one User row per distinct tokenIdentifier." *)
Definition invariant (db : Db) : Prop :=
  forall t, length (rows_with_token t db) <= 1.

Definition invariantb (db : Db) : bool :=
  bool_decide (NoDup (tokenIdentifier <$> users db)).

(** Document ids identify documents: no two stored rows share one. *)
Definition ids_unique (db : Db) : Prop := NoDup (_id <$> users db).

(** What an effect does to the database, and a trace of them in order. *)
Definition apply_effect (db : Db) (e : Effect) : Db :=
  match e with
  | Patched i n => mkDb (patch_rows i n (users db))
  | Inserted row => mkDb (users db ++ [row])
  | Logged _ => db
  end.

Definition replay (es : list Effect) (db : Db) : Db :=
  foldl apply_effect db es.

Definition alice : Identity := mkIdentity "abc" (Some "Alice").
Definition alicia : Identity := mkIdentity "abc" (Some "Alicia").
Definition bob : Identity := mkIdentity "xyz" (Some "Bob").
Definition carol : Identity := mkIdentity "klm" None.

(** A table with one row per identity, and one where an identity has two. *)
Definition two_users : Db :=
  mkDb [mkUser 1 (Some "Alice") "abc"; mkUser 2 (Some "Bob") "xyz"].
Definition doubled_user : Db :=
  mkDb [mkUser 1 (Some "Alice") "abc"; mkUser 2 (Some "Bob") "xyz";
        mkUser 3 (Some "Al") "abc"].

(** ** Kinds of requests and what identifies a row *)

(** A call of [put] by an authenticated caller: the only call that can
    write. *)
Definition is_authenticated_put (rq : Request) : bool :=
  match req_call rq, req_auth rq with
  | CallPut, Some _ => true
  | _, _ => false
  end.

(** A call of [put] by an identity whose [tokenIdentifier] is [t]. *)
Definition is_put_by (t : string) (rq : Request) : bool :=
  match req_call rq, req_auth rq with
  | CallPut, Some identity => bool_decide (id_tokenIdentifier identity = t)
  | _, _ => false
  end.

(** A call that passes the identity check of its handler: [list] has
    none, [me] and [put] need an identity. *)
Definition passes_auth (rq : Request) : bool :=
  match req_call rq, req_auth rq with
  | CallList, _ => true
  | _, Some _ => true
  | _, None => false
  end.

(** The fields of a row that no handler ever assigns twice. *)
Definition row_key (u : User) : Id * string := (_id u, tokenIdentifier u).

(** The [tokenIdentifier] a request would be stored under: the caller's,
    when the request is an authenticated [put]. *)
Definition caller_token (rq : Request) : option string :=
  match req_call rq, req_auth rq with
  | CallPut, Some identity => Some (id_tokenIdentifier identity)
  | _, _ => None
  end.

(** A column of [tokenIdentifier]s with one more caller: a known one
    changes nothing, a new one goes last. *)
Definition enroll (tokens : list string) (t : string) : list string :=
  if bool_decide (t ∈ tokens) then tokens else tokens ++ [t].

(** Every run of [put], by cases on the caller and on the rows that carry
    the caller's [tokenIdentifier]. *)
Inductive PutCase (auth : option Identity) (db : Db) : Run Id -> Prop :=
  | put_case_unauthenticated :
      auth = None ->
      PutCase auth db
        (mkRun (Thrown (JsError "Called storeUser without authentication present"))
               db [])
  | put_case_insert identity :
      auth = Some identity ->
      rows_with_token (id_tokenIdentifier identity) db = [] ->
      PutCase auth db
        (let row := mkUser (fresh_id db) (id_name identity)
                           (id_tokenIdentifier identity) in
         mkRun (Returned (fresh_id db)) (mkDb (users db ++ [row])) [Inserted row])
  | put_case_same identity u :
      auth = Some identity ->
      rows_with_token (id_tokenIdentifier identity) db = [u] ->
      name u = id_name identity ->
      PutCase auth db (mkRun (Returned (_id u)) db [])
  | put_case_patch identity u :
      auth = Some identity ->
      rows_with_token (id_tokenIdentifier identity) db = [u] ->
      name u <> id_name identity ->
      PutCase auth db
        (mkRun (Returned (_id u))
               (mkDb (patch_rows (_id u) (id_name identity) (users db)))
               [Patched (_id u) (id_name identity)])
  | put_case_several identity u v rest :
      auth = Some identity ->
      rows_with_token (id_tokenIdentifier identity) db = u :: v :: rest ->
      PutCase auth db (mkRun (Thrown NotUnique) db []).

(** ** static/SpeechSDK-JavaScript-1.25.1/speech-processor.js *)

(** The audio worklet [SpeechProcessor].  A channel is a [Float32Array];
    [process] passes channels on and never reads a sample, so the type of
    samples is left open. *)
Module SpeechProcessor.

Section Worklet.
Context {Sample : Type}.

Definition Channel : Type := list Sample.

(** What an array element can be read as: a channel, or [undefined]. *)
Definition Value : Type := option Channel.

(** A JavaScript array of channels; [None] is a hole. *)
Definition JsArray : Type := list Value.

(** [arr[i]]: a hole or an index past the end reads as [undefined]. *)
Definition js_get (arr : JsArray) (i : nat) : Value :=
  default None (arr !! i).

(** [arr[i] = x]: an index past the end extends the array, leaving
    holes in between. *)
Definition js_set (i : nat) (x : Value) (arr : JsArray) : JsArray :=
  if (i <? length arr)%nat then <[i := x]> arr
  else arr ++ replicate (i - length arr) None ++ [x].

Inductive Exception := TypeError.

(** One call of [process]: what it returned or threw, the messages
    posted to [this.port] so far, and the output buffers. *)
Record Processed := mkProcessed {
  returned : Exception + bool;
  port : list Value;
  outputs_after : list (list Channel);
}.

(** The loop [for (channel = 0; channel < input.length; channel += 1)
    output[channel] = input[channel]], from the empty [output]. *)
Definition copy_channels (input : list Channel) : JsArray :=
  foldl (fun output channel => js_set channel (input !! channel) output)
        [] (seq 0 (length input)).

(** [process(inputs, outputs)]: reading [input.length] throws when
    [inputs[0]] is [undefined]; otherwise [output[0]] is posted and
    [true] is returned.  [outputs] is never assigned. *)
Definition process (inputs outputs : list (list Channel)) (posted : list Value)
    : Processed :=
  match inputs !! 0 with
  | None => mkProcessed (inl TypeError) posted outputs
  | Some input =>
      let output := copy_channels input in
      mkProcessed (inr true) (posted ++ [js_get output 0]) outputs
  end.

(** The audio thread calls [process] once per render quantum, for as
    long as it returns [true]. *)
Fixpoint render (quanta : list (list (list Channel)))
    (outputs : list (list Channel)) (posted : list Value)
    : list (Exception + bool) * list Value :=
  match quanta with
  | [] => ([], posted)
  | inputs :: quanta' =>
      let r := process inputs outputs posted in
      match returned r with
      | inr true =>
          let (rs, posted') := render quanta' (outputs_after r) (port r) in
          (returned r :: rs, posted')
      | _ => ([returned r], port r)
      end
  end.

(** The message a quantum is expected to produce: the first channel of
    its first input, [undefined] when that input has no channel. *)
Definition first_channel (inputs : list (list Channel)) : Value :=
  head (default [] (head inputs)).
End Worklet.

End SpeechProcessor.

(** ** Running the handlers *)

Ltac run_handler :=
  cbv beta iota zeta delta
    [addUser.put_handler addUser.me_handler addUser.list_handler
     mbind Handler_bind handler_bind mret Handler_ret handler_ret
     getUserIdentity throw console_log collect unique
     outcome db_after effects app].

Lemma results_by_token t db :
  results (q_filter (eq_tokenIdentifier t) query_users) db = rows_with_token t db.
Proof. reflexivity. Qed.

Lemma results_all db : results query_users db = users db.
Proof.
  unfold results, query_users; cbn. induction (users db) as [|u l IH]; cbn; congruence.
Qed.

Lemma rows_with_token_elem t db u :
  In u (rows_with_token t db) -> In u (users db) /\ tokenIdentifier u = t.
Proof.
  unfold rows_with_token. rewrite filter_In. intros [Hin Ht]. split; [exact Hin|].
  unfold eq_tokenIdentifier in Ht. by apply bool_decide_eq_true in Ht.
Qed.

Lemma stored_has_id u rows : In u rows -> existsb (has_id (_id u)) rows = true.
Proof.
  intros Hin. apply existsb_exists. exists u. split; [exact Hin|].
  unfold has_id. by apply bool_decide_eq_true.
Qed.

(** The four ways a call of [put] by an authenticated caller can go. *)

Lemma put_handler_insert identity db :
  rows_with_token (id_tokenIdentifier identity) db = [] ->
  let row := mkUser (fresh_id db) (id_name identity) (id_tokenIdentifier identity) in
  addUser.put_handler (Some identity) db =
    mkRun (Returned (fresh_id db)) (mkDb (users db ++ [row])) [Inserted row].
Proof. intros H. run_handler. rewrite results_by_token, H. reflexivity. Qed.

Lemma put_handler_same identity db u :
  rows_with_token (id_tokenIdentifier identity) db = [u] ->
  name u = id_name identity ->
  addUser.put_handler (Some identity) db = mkRun (Returned (_id u)) db [].
Proof.
  intros H Hn. run_handler. rewrite results_by_token, H. cbn.
  rewrite bool_decide_eq_true_2 by exact Hn. reflexivity.
Qed.

Lemma put_handler_patch identity db u :
  rows_with_token (id_tokenIdentifier identity) db = [u] ->
  name u <> id_name identity ->
  addUser.put_handler (Some identity) db =
    mkRun (Returned (_id u))
          (mkDb (patch_rows (_id u) (id_name identity) (users db)))
          [Patched (_id u) (id_name identity)].
Proof.
  intros H Hn. run_handler. rewrite results_by_token, H. cbn.
  rewrite bool_decide_eq_false_2 by exact Hn. cbn. unfold patch.
  rewrite stored_has_id; [reflexivity|].
  apply (rows_with_token_elem (id_tokenIdentifier identity)). rewrite H. by left.
Qed.

Lemma put_handler_several identity db u v rest :
  rows_with_token (id_tokenIdentifier identity) db = u :: v :: rest ->
  addUser.put_handler (Some identity) db = mkRun (Thrown NotUnique) db [].
Proof. intros H. run_handler. rewrite results_by_token, H. reflexivity. Qed.

(** [put] throws before it writes, so the transaction never has anything
    to roll back. *)
Lemma put_is_put_handler auth db :
  addUser.put auth db = addUser.put_handler auth db.
Proof.
  unfold addUser.put, mutation. destruct auth as [identity|]; [|reflexivity].
  destruct (rows_with_token (id_tokenIdentifier identity) db) as [|u [|v rest]] eqn:H.
  - rewrite (put_handler_insert _ _ H). reflexivity.
  - destruct (decide (name u = id_name identity)) as [Hn|Hn].
    + rewrite (put_handler_same _ _ _ H Hn). reflexivity.
    + rewrite (put_handler_patch _ _ _ H Hn). reflexivity.
  - rewrite (put_handler_several _ _ _ _ _ H). reflexivity.
Qed.

(** ** The table after a write *)

Lemma tokenIdentifier_set_name n u :
  tokenIdentifier (set_name n u) = tokenIdentifier u.
Proof. reflexivity. Qed.

Lemma tokenIdentifier_patched i n u :
  tokenIdentifier (if has_id i u then set_name n u else u) = tokenIdentifier u.
Proof. by destruct (has_id i u). Qed.

Lemma length_patch_rows i n rows : length (patch_rows i n rows) = length rows.
Proof. unfold patch_rows. apply length_map. Qed.

(** A patch moves no row in or out of a selection that does not look at
    the name. *)
Lemma filter_patch_rows (p : User -> bool) i n rows :
  (forall u, p (set_name n u) = p u) ->
  List.filter p (patch_rows i n rows) = patch_rows i n (List.filter p rows).
Proof.
  intros Hp. induction rows as [|v rows IH]; [reflexivity|].
  cbn. destruct (has_id i v) eqn:Hv.
  - rewrite Hp. destruct (p v); cbn; rewrite ?Hv; by f_equal.
  - destruct (p v); cbn; rewrite ?Hv; by f_equal.
Qed.

Lemma rows_with_token_patch t i n db :
  rows_with_token t (mkDb (patch_rows i n (users db))) =
  patch_rows i n (rows_with_token t db).
Proof. unfold rows_with_token. cbn. by apply filter_patch_rows. Qed.

Lemma rows_with_token_insert t row db :
  rows_with_token t (mkDb (users db ++ [row])) =
  rows_with_token t db ++ (if eq_tokenIdentifier t row then [row] else []).
Proof. unfold rows_with_token. cbn. by rewrite List.filter_app. Qed.

Lemma rows_of_others_insert t i n db :
  rows_of_others t (mkDb (users db ++ [mkUser i n t])) = rows_of_others t db.
Proof.
  unfold rows_of_others. cbn. rewrite List.filter_app. cbn.
  unfold eq_tokenIdentifier at 2. cbn. rewrite bool_decide_eq_true_2 by done.
  cbn. apply app_nil_r.
Qed.

(** A patch leaves alone the rows that do not have the id. *)
Lemma patch_rows_frame i n rows :
  (forall v, In v rows -> has_id i v = false) -> patch_rows i n rows = rows.
Proof.
  intros H. induction rows as [|v rows IH]; [reflexivity|].
  cbn. rewrite H by (by left). f_equal. apply IH. intros w Hw. apply H. by right.
Qed.

Lemma same_id_same_row rows u v :
  NoDup (_id <$> rows) -> In u rows -> In v rows -> _id u = _id v -> u = v.
Proof.
  induction rows as [|w rows IH]; [by intros _ []|].
  intros Hnd. rewrite fmap_cons in Hnd. apply NoDup_cons in Hnd as [Hw Hnd].
  intros [->|Hu] [->|Hv] Hid; try done.
  - exfalso. apply Hw. rewrite Hid. apply list_elem_of_fmap. exists v.
    split; [done|]. by apply list_elem_of_In.
  - exfalso. apply Hw. rewrite <- Hid. apply list_elem_of_fmap. exists u.
    split; [done|]. by apply list_elem_of_In.
  - by apply IH.
Qed.

(** With ids that identify documents, patching the row of one identity
    touches no row of another. *)
Lemma rows_of_others_patch db u n :
  ids_unique db -> In u (users db) ->
  rows_of_others (tokenIdentifier u) (mkDb (patch_rows (_id u) n (users db))) =
  rows_of_others (tokenIdentifier u) db.
Proof.
  intros Hids Hu. unfold rows_of_others. cbn.
  rewrite filter_patch_rows by done. apply patch_rows_frame.
  intros v Hv. apply filter_In in Hv as [Hv Ht].
  unfold has_id. apply bool_decide_eq_false_2. intros Hid.
  assert (v = u) as -> by (by apply (same_id_same_row (users db))).
  unfold eq_tokenIdentifier in Ht. by rewrite bool_decide_eq_true_2 in Ht.
Qed.

Lemma fresh_id_fresh db u : In u (users db) -> _id u < fresh_id db.
Proof.
  intros Hu. unfold fresh_id. apply Nat.lt_succ_r, max_list_elem_of_le.
  apply list_elem_of_fmap. exists u. split; [done|]. by apply list_elem_of_In.
Qed.

(** ** The invariant, decided *)

Lemma no_row_with_token t rows :
  t ∉ tokenIdentifier <$> rows <-> List.filter (eq_tokenIdentifier t) rows = [].
Proof.
  induction rows as [|u rows IH]; cbn.
  - split; [done|]. intros _. apply not_elem_of_nil.
  - rewrite not_elem_of_cons. unfold eq_tokenIdentifier at 1.
    destruct (decide (tokenIdentifier u = t)) as [Ht|Ht].
    + rewrite bool_decide_eq_true_2 by done. split; [|done]. by intros [? _].
    + rewrite bool_decide_eq_false_2 by done. rewrite <- IH.
      split; [by intros [_ ?] | intros ?; split; [congruence | done]].
Qed.

Lemma invariant_NoDup db : invariant db <-> NoDup (tokenIdentifier <$> users db).
Proof.
  unfold invariant, rows_with_token. induction (users db) as [|u rows IH].
  - split; [constructor|]. intros _ t. cbn. lia.
  - rewrite fmap_cons, NoDup_cons, <- IH. split.
    + intros H. split.
      * apply no_row_with_token. specialize (H (tokenIdentifier u)).
        cbn in H. unfold eq_tokenIdentifier at 1 in H.
        rewrite bool_decide_eq_true_2 in H by done. cbn in H.
        destruct (List.filter _ rows); [done|cbn in H; lia].
      * intros t. specialize (H t). cbn in H.
        destruct (eq_tokenIdentifier t u); cbn in H; lia.
    + intros [Hu H] t. cbn. unfold eq_tokenIdentifier at 1.
      destruct (decide (tokenIdentifier u = t)) as [<-|Ht].
      * rewrite bool_decide_eq_true_2 by done. cbn.
        apply no_row_with_token in Hu. rewrite Hu. cbn. lia.
      * rewrite bool_decide_eq_false_2 by done. apply H.
Qed.

Lemma invariantb_spec db : invariantb db = true <-> invariant db.
Proof. unfold invariantb. rewrite bool_decide_eq_true. symmetry. apply invariant_NoDup. Qed.

(** ** What one call of [put] leaves behind *)

(** After a call by an identity that matched at most one row, exactly one
    row carries its [tokenIdentifier]; that row has the identity's name
    and its id is what the call returned. *)
Lemma put_settles identity db :
  length (rows_with_token (id_tokenIdentifier identity) db) <= 1 ->
  exists u,
    outcome (addUser.put (Some identity) db) = Returned (_id u) /\
    rows_with_token (id_tokenIdentifier identity)
                    (db_after (addUser.put (Some identity) db)) = [u] /\
    name u = id_name identity.
Proof.
  intros Hle. rewrite put_is_put_handler.
  destruct (rows_with_token (id_tokenIdentifier identity) db)
    as [|u [|v rest]] eqn:H; [| |cbn in Hle; lia].
  - rewrite (put_handler_insert _ _ H).
    exists (mkUser (fresh_id db) (id_name identity) (id_tokenIdentifier identity)).
    cbn. rewrite rows_with_token_insert, H. unfold eq_tokenIdentifier. cbn.
    by rewrite bool_decide_eq_true_2.
  - destruct (decide (name u = id_name identity)) as [Hn|Hn].
    + rewrite (put_handler_same _ _ _ H Hn). by exists u.
    + rewrite (put_handler_patch _ _ _ H Hn).
      exists (set_name (id_name identity) u). cbn.
      rewrite rows_with_token_patch, H. cbn. unfold has_id.
      by rewrite bool_decide_eq_true_2.
Qed.

(** ** Invariants of the table across calls *)

Lemma put_preserves_invariant auth db :
  invariant db -> invariant (db_after (addUser.put auth db)).
Proof.
  intros Hinv. rewrite put_is_put_handler.
  destruct auth as [identity|]; [|exact Hinv].
  destruct (rows_with_token (id_tokenIdentifier identity) db)
    as [|u [|v rest]] eqn:H.
  - rewrite (put_handler_insert _ _ H). cbn. intros t.
    rewrite rows_with_token_insert, length_app.
    destruct (eq_tokenIdentifier t _) eqn:Ht; cbn.
    + unfold eq_tokenIdentifier in Ht. cbn in Ht.
      apply bool_decide_eq_true in Ht as <-. rewrite H. cbn. lia.
    + specialize (Hinv t). lia.
  - destruct (decide (name u = id_name identity)) as [Hn|Hn].
    + by rewrite (put_handler_same _ _ _ H Hn).
    + rewrite (put_handler_patch _ _ _ H Hn). cbn. intros t.
      rewrite rows_with_token_patch, length_patch_rows. apply Hinv.
  - by rewrite (put_handler_several _ _ _ _ _ H).
Qed.

Lemma serve_preserves_invariant rq db :
  invariant db -> invariant (serve rq db).2.
Proof.
  intros Hinv. unfold serve. destruct (req_call rq); cbn; [done..|].
  by apply put_preserves_invariant.
Qed.

Lemma ids_patch_rows i n rows : _id <$> patch_rows i n rows = _id <$> rows.
Proof.
  induction rows as [|u rows IH]; [done|]. cbn. f_equal; [|exact IH].
  by destruct (has_id i u).
Qed.

(** The runtime keeps document ids distinct, whatever [put] does. *)
Lemma put_preserves_ids_unique auth db :
  ids_unique db -> ids_unique (db_after (addUser.put auth db)).
Proof.
  unfold ids_unique. intros Hids. rewrite put_is_put_handler.
  destruct auth as [identity|]; [|exact Hids].
  destruct (rows_with_token (id_tokenIdentifier identity) db)
    as [|u [|v rest]] eqn:H.
  - rewrite (put_handler_insert _ _ H). cbn. rewrite fmap_app. cbn.
    apply NoDup_app. split; [done|]. split; [|apply NoDup_singleton].
    intros i Hi Hi'. apply list_elem_of_singleton in Hi' as ->.
    apply list_elem_of_fmap in Hi as (u & Hu & Hin).
    apply list_elem_of_In, fresh_id_fresh in Hin. lia.
  - destruct (decide (name u = id_name identity)) as [Hn|Hn].
    + by rewrite (put_handler_same _ _ _ H Hn).
    + rewrite (put_handler_patch _ _ _ H Hn). cbn. by rewrite ids_patch_rows.
  - by rewrite (put_handler_several _ _ _ _ _ H).
Qed.

(** Calls by identities that are new to the table, with distinct
    [tokenIdentifier]s, all return and add one row each. *)
Lemma serve_puts_new identities db :
  NoDup (id_tokenIdentifier <$> identities) ->
  (forall identity, identity ∈ identities ->
     rows_with_token (id_tokenIdentifier identity) db = []) ->
  let served := serve_all (put_as <$> identities) db in
  forallb succeeded served.1 = true /\
  length served.1 = length identities /\
  length (users served.2) = length (users db) + length identities.
Proof.
  revert db. induction identities as [|identity rest IH]; intros db Hnd Hnew.
  { cbn. lia. }
  rewrite fmap_cons in Hnd. apply NoDup_cons in Hnd as [Hfirst Hnd].
  assert (rows_with_token (id_tokenIdentifier identity) db = []) as H
    by (apply Hnew; left).
  cbn. rewrite put_is_put_handler, (put_handler_insert _ _ H). cbn.
  set (db1 := mkDb (users db ++ [_])).
  specialize (IH db1 Hnd). destruct (serve_all (put_as <$> rest) db1) as [rs db2].
  cbn in IH |- *. destruct IH as (Hok & Hlen & Hrows).
  - intros other Hother. unfold db1. rewrite rows_with_token_insert.
    rewrite (Hnew other) by (by right). cbn.
    unfold eq_tokenIdentifier. cbn. rewrite bool_decide_eq_false_2; [done|].
    intros Heq. apply Hfirst. rewrite Heq. apply list_elem_of_fmap. by exists other.
  - rewrite Hok, Hlen, Hrows. unfold db1. cbn. rewrite length_app. cbn.
    split; [done|]. lia.
Qed.

(** ** The claims *)

(** C1. When the caller's [tokenIdentifier] matches at most one stored row
    (as it does in every state that satisfies the invariant), two calls of
    [put] in a row by the same identity with the same name both return,
    with the same id; after them exactly one row carries the
    [tokenIdentifier], and the second call performs no write and leaves
    the database as the first one left it. *)
Theorem put_twice_one_row (db : Db) (identity : Identity) :
  length (rows_with_token (id_tokenIdentifier identity) db) <= 1 ->
  let first := addUser.put (Some identity) db in
  let second := addUser.put (Some identity) (db_after first) in
  (exists i, outcome first = Returned i /\ outcome second = Returned i) /\
  length (rows_with_token (id_tokenIdentifier identity) (db_after second)) = 1 /\
  db_after second = db_after first /\
  effects second = [].
Proof.
  intros Hle first second.
  destruct (put_settles identity db Hle) as (u & Hout & Hrows & Hname).
  fold first in Hout, Hrows.
  assert (second = mkRun (Returned (_id u)) (db_after first) []) as ->.
  { unfold second. rewrite put_is_put_handler.
    by apply put_handler_same. }
  cbn. rewrite Hrows. split; [by exists (_id u)|done].
Qed.

(** Alice is stored and comes back as Alicia, twice. *)
Lemma put_twice_one_row_witness :
  length (rows_with_token (id_tokenIdentifier alicia) two_users) <= 1 /\
  (let first := addUser.put (Some alicia) two_users in
   let second := addUser.put (Some alicia) (db_after first) in
   (exists i, outcome first = Returned i /\ outcome second = Returned i) /\
   length (rows_with_token (id_tokenIdentifier alicia) (db_after second)) = 1 /\
   db_after second = db_after first /\
   effects second = []).
Proof.
  split; [vm_compute; lia|].
  apply (put_twice_one_row two_users alicia). vm_compute; lia.
Defined.

(** C2. Without an identity [put] throws its authentication error, runs
    no write, and the database after the call is the one before it; that
    is already so for the handler itself, before the transaction it runs
    in is rolled back. *)
Theorem put_unauthenticated (db : Db) :
  addUser.put None db =
    mkRun (Thrown (JsError "Called storeUser without authentication present")) db []
  /\ addUser.put_handler None db = addUser.put None db.
Proof. split; reflexivity. Qed.

(** C3. When exactly one row [u] carries the caller's [tokenIdentifier]
    and the caller's name differs from the stored one, [put] returns the
    id of [u], the row keeps its id and gets the new name, it is still the
    only row with that [tokenIdentifier], and the table has as many rows
    as before.  The id is the one the creating call returned: when the
    database is the one a first call of [put] for this [tokenIdentifier]
    left behind, both calls have the same outcome. *)
Theorem put_changed_name (db : Db) (identity : Identity) (u : User) :
  rows_with_token (id_tokenIdentifier identity) db = [u] ->
  name u <> id_name identity ->
  let r := addUser.put (Some identity) db in
  outcome r = Returned (_id u) /\
  rows_with_token (id_tokenIdentifier identity) (db_after r) =
    [mkUser (_id u) (id_name identity) (id_tokenIdentifier identity)] /\
  length (users (db_after r)) = length (users db) /\
  effects r = [Patched (_id u) (id_name identity)] /\
  (forall db0 creator,
     id_tokenIdentifier creator = id_tokenIdentifier identity ->
     rows_with_token (id_tokenIdentifier creator) db0 = [] ->
     db = db_after (addUser.put (Some creator) db0) ->
     outcome r = outcome (addUser.put (Some creator) db0)).
Proof.
  intros H Hn r.
  assert (tokenIdentifier u = id_tokenIdentifier identity) as Ht.
  { apply (rows_with_token_elem _ db). rewrite H. by left. }
  assert (r = mkRun (Returned (_id u))
                    (mkDb (patch_rows (_id u) (id_name identity) (users db)))
                    [Patched (_id u) (id_name identity)]) as ->.
  { unfold r. rewrite put_is_put_handler. by apply put_handler_patch. }
  cbn. split; [done|]. split.
  { rewrite rows_with_token_patch, H. cbn. unfold has_id.
    rewrite bool_decide_eq_true_2 by done. unfold set_name. by rewrite Ht. }
  split; [apply length_patch_rows|]. split; [done|].
  intros db0 creator Hc H0 ->.
  rewrite put_is_put_handler, (put_handler_insert _ _ H0) in H |- *.
  cbn in H |- *. rewrite rows_with_token_insert, <- Hc, H0 in H.
  cbn in H. unfold eq_tokenIdentifier in H. cbn in H.
  rewrite bool_decide_eq_true_2 in H by done. by inversion H.
Qed.

(** The scenario of the specification: Alice signs in for the first time,
    then comes back as Alicia. *)
Lemma put_changed_name_witness :
  let db := db_after (addUser.put (Some alice) empty_db) in
  let u := mkUser 1 (Some "Alice") "abc" in
  rows_with_token (id_tokenIdentifier alicia) db = [u] /\
  name u <> id_name alicia /\
  outcome (addUser.put (Some alicia) db) = Returned 1 /\
  users (db_after (addUser.put (Some alicia) db)) =
    [mkUser 1 (Some "Alicia") "abc"] /\
  outcome (addUser.put (Some alicia) db) =
    outcome (addUser.put (Some alice) empty_db).
Proof.
  intros db u.
  assert (rows_with_token (id_tokenIdentifier alicia) db = [u]) as H
    by reflexivity.
  assert (name u <> id_name alicia) as Hn by discriminate.
  split; [exact H|]. split; [exact Hn|].
  destruct (put_changed_name db alicia u H Hn) as (Hout & _ & _ & _ & Hsame).
  split; [exact Hout|]. split; [reflexivity|].
  apply (Hsame empty_db alice); reflexivity.
Defined.

(** C6. Without an identity [me] throws its authentication error and has
    no effect: nothing is logged, nothing is written and the database is
    the one before the call, also for the handler itself. *)
Theorem me_unauthenticated (db : Db) :
  addUser.me None db =
    mkRun (Thrown (JsError "Unauthenticated call to mutation")) db []
  /\ addUser.me_handler None db = addUser.me None db.
Proof. split; reflexivity. Qed.

(** C7. Without an identity [list] returns, and what it returns is the
    whole "users" table: every stored row, in stored order.  It has no
    effect on the database. *)
Theorem list_unauthenticated (db : Db) :
  addUser.list None db = mkRun (Returned (users db)) db []
  /\ addUser.list_handler None db = addUser.list None db.
Proof.
  assert (addUser.list_handler None db = mkRun (Returned (users db)) db []) as H.
  { run_handler. by rewrite results_all. }
  unfold addUser.list, query. rewrite H. done.
Qed.

(** C9. The run of [list] does not depend on who calls: on the same
    database any two callers, authenticated or not, get the same array
    (and the same run altogether). *)
Theorem list_ignores_caller (db : Db) (auth1 auth2 : option Identity) :
  addUser.list auth1 db = addUser.list auth2 db
  /\ outcome (addUser.list auth1 db) = Returned (users db).
Proof.
  split; [reflexivity|].
  unfold addUser.list, query. run_handler. by rewrite results_all.
Qed.

(** C10. When more than one stored row carries the caller's
    [tokenIdentifier], [put] throws the error of [unique()], runs no write
    and leaves the database as it was; so does the handler itself. *)
Theorem put_not_unique (db : Db) (identity : Identity) :
  1 < length (rows_with_token (id_tokenIdentifier identity) db) ->
  addUser.put (Some identity) db = mkRun (Thrown NotUnique) db []
  /\ addUser.put_handler (Some identity) db = addUser.put (Some identity) db.
Proof.
  intros Hlt. rewrite put_is_put_handler. split; [|done].
  destruct (rows_with_token (id_tokenIdentifier identity) db)
    as [|u [|v rest]] eqn:H; [cbn in Hlt; lia..|].
  by apply (put_handler_several _ _ u v rest).
Qed.

(** Two rows carry Alice's [tokenIdentifier]. *)
Lemma put_not_unique_witness :
  1 < length (rows_with_token (id_tokenIdentifier alice) doubled_user) /\
  addUser.put (Some alice) doubled_user = mkRun (Thrown NotUnique) doubled_user [] /\
  addUser.put_handler (Some alice) doubled_user = addUser.put (Some alice) doubled_user.
Proof.
  split; [vm_compute; lia|].
  apply (put_not_unique doubled_user alice). vm_compute; lia.
Defined.

(** C4. The invariant "at most one User row per distinct tokenIdentifier"
    survives every sequence of [me], [list] and [put] calls served one
    after the other, whoever makes them. *)
Theorem invariant_preserved (rqs : list Request) (db : Db) :
  invariant db -> invariant (serve_all rqs db).2.
Proof.
  revert db. induction rqs as [|rq rqs IH]; intros db Hinv; [exact Hinv|].
  cbn. pose proof (serve_preserves_invariant rq db Hinv) as H1.
  destruct (serve rq db) as [r db1]. cbn in H1.
  specialize (IH db1 H1). by destruct (serve_all rqs db1) as [rs db2].
Qed.

(** A mixed sequence of calls on a table that satisfies the invariant. *)
Lemma invariant_preserved_witness :
  let rqs := [put_as alicia; mkRequest CallList None; put_as carol;
              mkRequest CallMe None; mkRequest CallPut None; put_as alice;
              mkRequest CallMe (Some bob); put_as carol] in
  invariant two_users /\ invariant (serve_all rqs two_users).2.
Proof.
  intros rqs.
  assert (invariant two_users) as H
    by (apply invariantb_spec; vm_compute; reflexivity).
  split; [exact H|]. exact (invariant_preserved rqs two_users H).
Defined.

(** C5. Starting from an empty "users" table, N calls of [put] by N
    identities with pairwise distinct [tokenIdentifier]s all return, and
    [list], called by anyone afterwards, returns exactly N rows. *)
Theorem list_after_puts (identities : list Identity) (auth : option Identity) :
  NoDup (id_tokenIdentifier <$> identities) ->
  let served := serve_all (put_as <$> identities) empty_db in
  forallb succeeded served.1 = true /\
  length served.1 = length identities /\
  exists rows,
    outcome (addUser.list auth served.2) = Returned rows /\
    length rows = length identities.
Proof.
  intros Hnd served.
  destruct (serve_puts_new identities empty_db Hnd) as (Hok & Hlen & Hrows).
  { done. }
  fold served in Hok, Hlen, Hrows. split; [done|]. split; [done|].
  exists (users served.2). split; [|exact Hrows].
  unfold addUser.list, query. run_handler. by rewrite results_all.
Qed.

(** Three identities sign in for the first time. *)
Lemma list_after_puts_witness :
  NoDup (id_tokenIdentifier <$> [alice; bob; carol]) /\
  (let served := serve_all (put_as <$> [alice; bob; carol]) empty_db in
   forallb succeeded served.1 = true /\
   length served.1 = 3 /\
   exists rows,
     outcome (addUser.list None served.2) = Returned rows /\
     length rows = 3).
Proof.
  assert (NoDup (id_tokenIdentifier <$> [alice; bob; carol])) as H
    by (apply (bool_decide_unpack _); vm_compute; exact I).
  split; [exact H|]. exact (list_after_puts [alice; bob; carol] None H).
Defined.

(** C8. A call of [put] by an identity that matches at most one stored row
    runs no write, or one patch, or one insert, and nothing else; the
    database after it is the database before it with that write applied;
    and the rows of every other [tokenIdentifier] are the same rows, in
    the same order, as before.  Document ids are taken to identify
    documents, as the runtime guarantees. *)
Theorem put_one_write (db : Db) (identity : Identity) :
  ids_unique db ->
  length (rows_with_token (id_tokenIdentifier identity) db) <= 1 ->
  let r := addUser.put (Some identity) db in
  (effects r = [] \/
   (exists i, effects r = [Patched i (id_name identity)]) \/
   (exists row, effects r = [Inserted row])) /\
  length (writes (effects r)) <= 1 /\
  db_after r = replay (effects r) db /\
  rows_of_others (id_tokenIdentifier identity) (db_after r) =
    rows_of_others (id_tokenIdentifier identity) db.
Proof.
  intros Hids Hle r. unfold r. rewrite put_is_put_handler.
  destruct (rows_with_token (id_tokenIdentifier identity) db)
    as [|u [|v rest]] eqn:H; [| |cbn in Hle; lia].
  - rewrite (put_handler_insert _ _ H). cbn.
    split; [right; right; by eexists|]. split; [lia|]. split; [done|].
    apply rows_of_others_insert.
  - assert (In u (users db) /\ tokenIdentifier u = id_tokenIdentifier identity)
      as [Hu Ht].
    { apply rows_with_token_elem. rewrite H. by left. }
    destruct (decide (name u = id_name identity)) as [Hn|Hn].
    + rewrite (put_handler_same _ _ _ H Hn). cbn.
      split; [by left|]. split; [lia|]. done.
    + rewrite (put_handler_patch _ _ _ H Hn). cbn.
      split; [right; left; by eexists|]. split; [lia|]. split; [done|].
      rewrite <- Ht. by apply rows_of_others_patch.
Qed.

(** Alice comes back as Alicia while Bob is stored too. *)
Lemma put_one_write_witness :
  ids_unique two_users /\
  length (rows_with_token (id_tokenIdentifier alicia) two_users) <= 1 /\
  (let r := addUser.put (Some alicia) two_users in
   (effects r = [] \/
    (exists i, effects r = [Patched i (id_name alicia)]) \/
    (exists row, effects r = [Inserted row])) /\
   length (writes (effects r)) <= 1 /\
   db_after r = replay (effects r) two_users /\
   rows_of_others (id_tokenIdentifier alicia) (db_after r) =
     rows_of_others (id_tokenIdentifier alicia) two_users).
Proof.
  assert (ids_unique two_users) as Hids
    by (apply (bool_decide_unpack _); vm_compute; exact I).
  assert (length (rows_with_token (id_tokenIdentifier alicia) two_users) <= 1)
    as Hle by (vm_compute; lia).
  split; [exact Hids|]. split; [exact Hle|].
  exact (put_one_write two_users alicia Hids Hle).
Defined.

(** ** Further properties of the handlers *)

Lemma put_cases auth db : PutCase auth db (addUser.put auth db).
Proof.
  rewrite put_is_put_handler. destruct auth as [identity|].
  2: { by apply put_case_unauthenticated. }
  destruct (rows_with_token (id_tokenIdentifier identity) db)
    as [|u [|v rest]] eqn:H.
  - rewrite (put_handler_insert _ _ H). by apply put_case_insert.
  - destruct (decide (name u = id_name identity)) as [Hn|Hn].
    + rewrite (put_handler_same _ _ _ H Hn). by apply (put_case_same _ _ identity u).
    + rewrite (put_handler_patch _ _ _ H Hn). by apply (put_case_patch _ _ identity u).
  - rewrite (put_handler_several _ _ _ _ _ H).
    by apply (put_case_several _ _ identity u v rest).
Qed.

Lemma serve_all_app rqs1 rqs2 db :
  serve_all (rqs1 ++ rqs2) db =
    ((serve_all rqs1 db).1 ++ (serve_all rqs2 (serve_all rqs1 db).2).1,
     (serve_all rqs2 (serve_all rqs1 db).2).2).
Proof.
  revert db. induction rqs1 as [|rq rqs1 IH]; intros db.
  - cbn. by destruct (serve_all rqs2 db).
  - cbn. destruct (serve rq db) as [r db1]. rewrite IH.
    by destruct (serve_all rqs1 db1) as [rs db2].
Qed.

Lemma serve_db rq db :
  (serve rq db).2 =
    match req_call rq with
    | CallPut => db_after (addUser.put (req_auth rq) db)
    | _ => db
    end.
Proof. unfold serve. by destruct (req_call rq). Qed.

(** A property of the database that every single call keeps is kept by
    every sequence of calls. *)
Lemma serve_all_ind (P : Db -> Prop) :
  (forall rq db, P db -> P (serve rq db).2) ->
  forall rqs db, P db -> P (serve_all rqs db).2.
Proof.
  intros Hstep rqs. induction rqs as [|rq rqs IH]; intros db HP; [exact HP|].
  cbn. pose proof (Hstep rq db HP) as H1. destruct (serve rq db) as [r db1].
  specialize (IH db1 H1). by destruct (serve_all rqs db1).
Qed.

(** [me] returns exactly when the caller is authenticated, and then it
    returns the caller's identity and logs it once; in no case does it
    write or change the database. *)
Theorem me_returns_caller (auth : option Identity) (db : Db) :
  (forall i, outcome (addUser.me auth db) = Returned i <-> auth = Some i) /\
  (forall i, auth = Some i -> effects (addUser.me auth db) = [Logged i]) /\
  writes (effects (addUser.me_handler auth db)) = [] /\
  db_after (addUser.me_handler auth db) = db.
Proof.
  unfold addUser.me, query. destruct auth as [identity|]; run_handler; cbn.
  - split; [intros i; split; congruence|].
    split; [by intros i [= <-]|done].
  - split; [intros i; split; discriminate|].
    split; [by intros i [=]|done].
Qed.

(** The first call of [put] for a [tokenIdentifier] stores one new row
    after the existing ones, with the caller's name and
    [tokenIdentifier], under an id that no stored row has, and returns
    that id. *)
Theorem put_first_contact (db : Db) (identity : Identity) :
  rows_with_token (id_tokenIdentifier identity) db = [] ->
  let r := addUser.put (Some identity) db in
  exists i,
    outcome r = Returned i /\
    (i ∉ _id <$> users db) /\
    users (db_after r) =
      users db ++ [mkUser i (id_name identity) (id_tokenIdentifier identity)] /\
    effects r =
      [Inserted (mkUser i (id_name identity) (id_tokenIdentifier identity))].
Proof.
  intros H r. unfold r. rewrite put_is_put_handler, (put_handler_insert _ _ H).
  exists (fresh_id db). cbn. split; [done|]. split; [|done].
  intros Hin. apply list_elem_of_fmap in Hin as (u & Hu & Hin).
  apply list_elem_of_In, fresh_id_fresh in Hin. lia.
Qed.

Lemma put_first_contact_witness :
  rows_with_token (id_tokenIdentifier carol) two_users = [] /\
  exists i,
    outcome (addUser.put (Some carol) two_users) = Returned i /\
    (i ∉ _id <$> users two_users) /\
    users (db_after (addUser.put (Some carol) two_users)) =
      users two_users ++ [mkUser i (id_name carol) (id_tokenIdentifier carol)] /\
    effects (addUser.put (Some carol) two_users) =
      [Inserted (mkUser i (id_name carol) (id_tokenIdentifier carol))].
Proof.
  split; [reflexivity|]. apply (put_first_contact two_users carol). reflexivity.
Defined.

(** [put] returns exactly when the caller is authenticated and at most
    one stored row carries the caller's [tokenIdentifier]. *)
Theorem put_returns_iff (auth : option Identity) (db : Db) :
  (exists i, outcome (addUser.put auth db) = Returned i) <->
  (exists identity,
     auth = Some identity /\
     length (rows_with_token (id_tokenIdentifier identity) db) <= 1).
Proof.
  destruct (put_cases auth db) as [Ha|identity Ha H|identity u Ha H Hn
                                  |identity u Ha H Hn|identity u v rest Ha H]; cbn.
  - split; [by intros [i ?]|]. intros (identity & Hi & _). congruence.
  - split; [|by eexists]. intros _. exists identity. rewrite H. cbn. split; [done|lia].
  - split; [|by eexists]. intros _. exists identity. rewrite H. cbn. split; [done|lia].
  - split; [|by eexists]. intros _. exists identity. rewrite H. cbn. split; [done|lia].
  - split; [by intros [i ?]|]. intros (identity' & Hi & Hle).
    rewrite Ha in Hi. injection Hi as <-. rewrite H in Hle. cbn in Hle. lia.
Qed.

(** When the handler of [put] throws, it is for one of two reasons, a
    missing identity or several rows for the caller; it has written
    nothing by then.  In particular [db.patch] is never handed an id that
    is not stored. *)
Theorem put_throws_cleanly (auth : option Identity) (db : Db) (e : Error) :
  outcome (addUser.put_handler auth db) = Thrown e ->
  (e = JsError "Called storeUser without authentication present" /\ auth = None
   \/ e = NotUnique /\
      exists identity,
        auth = Some identity /\
        1 < length (rows_with_token (id_tokenIdentifier identity) db)) /\
  effects (addUser.put_handler auth db) = [] /\
  db_after (addUser.put_handler auth db) = db.
Proof.
  rewrite <- put_is_put_handler.
  destruct (put_cases auth db) as [Ha|identity Ha H|identity u Ha H Hn
                                  |identity u Ha H Hn|identity u v rest Ha H]; cbn;
    intros He; try discriminate; injection He as <-.
  - split; [by left|done].
  - split; [|done]. right. split; [done|]. exists identity. rewrite H. cbn.
    split; [done|lia].
Qed.

Lemma put_throws_cleanly_witness :
  outcome (addUser.put_handler (Some alice) doubled_user) = Thrown NotUnique /\
  effects (addUser.put_handler (Some alice) doubled_user) = [] /\
  db_after (addUser.put_handler (Some alice) doubled_user) = doubled_user.
Proof.
  split; [reflexivity|].
  exact (proj2 (put_throws_cleanly (Some alice) doubled_user NotUnique eq_refl)).
Defined.

Lemma row_keys_patch_rows i n rows :
  row_key <$> patch_rows i n rows = row_key <$> rows.
Proof.
  induction rows as [|u rows IH]; [done|]. cbn. f_equal; [|exact IH].
  by destruct (has_id i u).
Qed.

Lemma serve_preserves_ids_unique rq db :
  ids_unique db -> ids_unique (serve rq db).2.
Proof.
  intros Hids. rewrite serve_db. destruct (req_call rq); [done..|].
  by apply put_preserves_ids_unique.
Qed.

Lemma serve_keys rq db :
  row_key <$> users db `prefix_of` row_key <$> users (serve rq db).2 /\
  length (users (serve rq db).2) <=
    length (users db) + (if is_authenticated_put rq then 1 else 0).
Proof.
  rewrite serve_db. unfold is_authenticated_put.
  destruct (req_call rq); [split; [done|lia]..|].
  destruct (put_cases (req_auth rq) db)
    as [Ha|identity Ha H|identity u Ha H Hn|identity u Ha H Hn|identity u v rest Ha H];
    rewrite Ha; cbn; try (split; [done|lia]).
  - rewrite fmap_app, length_app. cbn. split; [by eexists|lia].
  - rewrite row_keys_patch_rows, length_patch_rows. split; [done|lia].
Qed.

Lemma serve_without_put rq db :
  is_authenticated_put rq = false -> (serve rq db).2 = db.
Proof.
  rewrite serve_db. unfold is_authenticated_put.
  destruct (req_call rq); [done..|]. by destruct (req_auth rq).
Qed.

(** A call that is not a [put] by the identity [t] leaves the rows of [t]
    as they are. *)
Lemma serve_frame t rq db :
  ids_unique db -> is_put_by t rq = false ->
  rows_with_token t (serve rq db).2 = rows_with_token t db.
Proof.
  intros Hids. rewrite serve_db. unfold is_put_by.
  destruct (req_call rq); [done..|].
  destruct (put_cases (req_auth rq) db)
    as [Ha|identity Ha H|identity u Ha H Hn|identity u Ha H Hn|identity u v rest Ha H];
    rewrite Ha; cbn; try done; intros Ht; apply bool_decide_eq_false in Ht.
  - rewrite rows_with_token_insert. unfold eq_tokenIdentifier. cbn.
    rewrite bool_decide_eq_false_2 by done. apply app_nil_r.
  - rewrite rows_with_token_patch. apply patch_rows_frame. intros v Hv.
    apply rows_with_token_elem in Hv as [Hv Hvt].
    assert (In u (users db) /\ tokenIdentifier u = id_tokenIdentifier identity)
      as [Hu Hut] by (apply rows_with_token_elem; rewrite H; by left).
    unfold has_id. apply bool_decide_eq_false_2. intros Hid.
    assert (v = u) as -> by (by apply (same_id_same_row (users db))). congruence.
Qed.

Lemma serve_succeeds rq db :
  invariant db -> passes_auth rq = true -> succeeded (serve rq db).1 = true.
Proof.
  intros Hinv. unfold serve, passes_auth. destruct (req_call rq).
  - by destruct (req_auth rq).
  - intros _. cbn. done.
  - destruct (req_auth rq) as [identity|]; [intros _|done]. cbn.
    destruct (put_cases (Some identity) db)
      as [Ha|identity' Ha H|identity' u Ha H Hn|identity' u Ha H Hn
         |identity' u v rest Ha H]; try done.
    injection Ha as ->. specialize (Hinv (id_tokenIdentifier identity')).
    rewrite H in Hinv. cbn in Hinv. lia.
Qed.

(** The ids of the rows of [t] stay what they are once [t] has a row. *)
Lemma serve_keeps_ids t ids rq db :
  ids <> [] ->
  _id <$> rows_with_token t db = ids ->
  _id <$> rows_with_token t (serve rq db).2 = ids.
Proof.
  intros Hne Hids. rewrite serve_db. destruct (req_call rq); [done..|].
  destruct (put_cases (req_auth rq) db)
    as [Ha|identity Ha H|identity u Ha H Hn|identity u Ha H Hn|identity u v rest Ha H];
    cbn; try done.
  - rewrite rows_with_token_insert. unfold eq_tokenIdentifier. cbn.
    rewrite bool_decide_eq_false_2; [by rewrite app_nil_r|].
    intros <-. rewrite H in Hids. cbn in Hids. congruence.
  - by rewrite rows_with_token_patch, ids_patch_rows.
Qed.

(** Document ids stay distinct through every sequence of calls: [put]
    only stores a row under an id that is not in use, and a patch keeps
    every id. *)
Lemma serve_all_ids_unique (rqs : list Request) (db : Db) :
  ids_unique db -> ids_unique (serve_all rqs db).2.
Proof. apply serve_all_ind. apply serve_preserves_ids_unique. Qed.

(** No call removes a row, moves one, or changes the id or the
    [tokenIdentifier] of one: after any sequence of calls the stored rows
    are the old ones, up to their names, followed by at most one new row
    per authenticated [put]. *)
Theorem rows_append_only (rqs : list Request) (db : Db) :
  row_key <$> users db `prefix_of` row_key <$> users (serve_all rqs db).2 /\
  length (users (serve_all rqs db).2) <=
    length (users db) + length (List.filter is_authenticated_put rqs).
Proof.
  revert db. induction rqs as [|rq rqs IH]; intros db.
  { cbn. split; [done|lia]. }
  cbn. destruct (serve_keys rq db) as [Hpre Hlen].
  destruct (serve rq db) as [r db1]. cbn in Hpre, Hlen.
  destruct (IH db1) as [Hpre' Hlen']. destruct (serve_all rqs db1) as [rs db2].
  cbn in Hpre', Hlen' |- *. split; [by etrans|].
  destruct (is_authenticated_put rq); cbn; lia.
Qed.

(** Only an authenticated [put] can change the database: a sequence of
    calls without one leaves it exactly as it was. *)
Theorem only_put_writes (rqs : list Request) (db : Db) :
  forallb (fun rq => negb (is_authenticated_put rq)) rqs = true ->
  (serve_all rqs db).2 = db.
Proof.
  revert db. induction rqs as [|rq rqs IH]; intros db H; [done|].
  cbn in H. apply andb_true_iff in H as [Hrq H].
  apply negb_true_iff in Hrq. cbn.
  pose proof (serve_without_put rq db Hrq) as H1.
  destruct (serve rq db) as [r db1]. cbn in H1. subst db1.
  specialize (IH db H). by destruct (serve_all rqs db).
Qed.

Lemma only_put_writes_witness :
  let rqs := [mkRequest CallMe (Some alicia); mkRequest CallList None;
              mkRequest CallPut None; mkRequest CallList (Some carol);
              mkRequest CallMe None] in
  forallb (fun rq => negb (is_authenticated_put rq)) rqs = true /\
  (serve_all rqs two_users).2 = two_users.
Proof.
  intros rqs. split; [reflexivity|].
  apply (only_put_writes rqs two_users). reflexivity.
Defined.

Lemma serve_all_frame (t : string) (rqs : list Request) (db : Db) :
  ids_unique db ->
  forallb (fun rq => negb (is_put_by t rq)) rqs = true ->
  rows_with_token t (serve_all rqs db).2 = rows_with_token t db.
Proof.
  revert db. induction rqs as [|rq rqs IH]; intros db Hids H; [done|].
  cbn in H. apply andb_true_iff in H as [Hrq H].
  apply negb_true_iff in Hrq. cbn.
  pose proof (serve_frame t rq db Hids Hrq) as H1.
  pose proof (serve_preserves_ids_unique rq db Hids) as H2.
  destruct (serve rq db) as [r db1]. cbn in H1, H2.
  specialize (IH db1 H2 H). destruct (serve_all rqs db1) as [rs db2].
  cbn in IH |- *. congruence.
Qed.

(** No caller can touch the rows of another identity: the rows that carry
    a [tokenIdentifier] are the same after any sequence of calls in which
    no [put] is made by an identity with that [tokenIdentifier].  Document
    ids are taken to identify documents. *)
Theorem rows_isolated (t : string) (rqs : list Request) (db : Db) :
  ids_unique db ->
  forallb (fun rq => negb (is_put_by t rq)) rqs = true ->
  rows_with_token t (serve_all rqs db).2 = rows_with_token t db.
Proof. apply serve_all_frame. Qed.

Lemma rows_isolated_witness :
  let rqs := [put_as alicia; put_as carol; mkRequest CallList None;
              put_as (mkIdentity "klm" (Some "Carol")); put_as alice] in
  ids_unique two_users /\
  forallb (fun rq => negb (is_put_by "xyz" rq)) rqs = true /\
  rows_with_token "xyz" (serve_all rqs two_users).2 =
    rows_with_token "xyz" two_users.
Proof.
  intros rqs.
  assert (ids_unique two_users) as H
    by (apply (bool_decide_unpack _); vm_compute; exact I).
  split; [exact H|]. split; [reflexivity|].
  exact (rows_isolated "xyz" rqs two_users H eq_refl).
Defined.

(** On a database that satisfies the invariant no call fails for any
    reason but a missing identity: in every sequence of calls that each
    pass their handler's identity check, every call returns. *)
Theorem authenticated_calls_return (rqs : list Request) (db : Db) :
  invariant db ->
  forallb passes_auth rqs = true ->
  forallb succeeded (serve_all rqs db).1 = true.
Proof.
  revert db. induction rqs as [|rq rqs IH]; intros db Hinv H; [done|].
  cbn in H. apply andb_true_iff in H as [Hrq H]. cbn.
  pose proof (serve_succeeds rq db Hinv Hrq) as H1.
  pose proof (serve_preserves_invariant rq db Hinv) as H2.
  destruct (serve rq db) as [r db1]. cbn in H1, H2.
  specialize (IH db1 H2 H). destruct (serve_all rqs db1) as [rs db2].
  cbn in IH |- *. by rewrite H1, IH.
Qed.

Lemma authenticated_calls_return_witness :
  let rqs := [put_as alicia; mkRequest CallList None; put_as carol;
              mkRequest CallMe (Some bob); put_as alice; put_as carol] in
  invariant two_users /\
  forallb passes_auth rqs = true /\
  forallb succeeded (serve_all rqs two_users).1 = true.
Proof.
  intros rqs.
  assert (invariant two_users) as H
    by (apply invariantb_spec; vm_compute; reflexivity).
  split; [exact H|]. split; [reflexivity|].
  exact (authenticated_calls_return rqs two_users H eq_refl).
Defined.

Lemma serve_all_invariant rqs db :
  invariant db -> invariant (serve_all rqs db).2.
Proof. apply serve_all_ind. apply serve_preserves_invariant. Qed.

(** The stored name is the one of the last call: on a database that
    satisfies the invariant, whatever calls came before, right after a
    [put] by an identity exactly one row carries its [tokenIdentifier],
    with its name, and the call returned the id of that row. *)
Theorem last_put_names_row (rqs : list Request) (identity : Identity) (db : Db) :
  invariant db ->
  let served := serve_all (rqs ++ [put_as identity]) db in
  exists u,
    rows_with_token (id_tokenIdentifier identity) served.2 = [u] /\
    name u = id_name identity /\
    last served.1 = Some (PutResponse (Returned (_id u))).
Proof.
  intros Hinv served. unfold served. rewrite serve_all_app.
  pose proof (serve_all_invariant rqs db Hinv) as Hinv1.
  destruct (serve_all rqs db) as [rs db1]. cbn in Hinv1 |- *.
  destruct (put_settles identity db1 (Hinv1 _)) as (u & Hout & Hrows & Hname).
  exists u. rewrite Hout, last_snoc. done.
Qed.

Lemma last_put_names_row_witness :
  let rqs := [put_as alice; put_as carol; mkRequest CallMe None] in
  let served := serve_all (rqs ++ [put_as alicia]) two_users in
  invariant two_users /\
  exists u,
    rows_with_token (id_tokenIdentifier alicia) served.2 = [u] /\
    name u = id_name alicia /\
    last served.1 = Some (PutResponse (Returned (_id u))).
Proof.
  intros rqs served.
  assert (invariant two_users) as H
    by (apply invariantb_spec; vm_compute; reflexivity).
  split; [exact H|]. exact (last_put_names_row rqs alicia two_users H).
Defined.

(** The id of an identity never changes: once a [put] has returned an id,
    every later [put] by an identity with the same [tokenIdentifier]
    returns that id again, under any name and after any calls in
    between. *)
Theorem put_id_is_stable (db : Db) (identity identity' : Identity)
    (rqs : list Request) (i : Id) :
  outcome (addUser.put (Some identity) db) = Returned i ->
  id_tokenIdentifier identity' = id_tokenIdentifier identity ->
  let db1 := db_after (addUser.put (Some identity) db) in
  outcome (addUser.put (Some identity') (serve_all rqs db1).2) = Returned i.
Proof.
  intros Hout Ht db1.
  assert (_id <$> rows_with_token (id_tokenIdentifier identity) db1 = [i]) as Hids.
  { unfold db1. revert Hout.
    destruct (put_cases (Some identity) db)
      as [Ha|who Ha H|who u Ha H Hn|who u Ha H Hn|who u v rest Ha H];
      cbn; try done; injection Ha as ->; intros [= <-].
    - rewrite rows_with_token_insert, H. unfold eq_tokenIdentifier. cbn.
      by rewrite bool_decide_eq_true_2.
    - by rewrite H.
    - by rewrite rows_with_token_patch, ids_patch_rows, H. }
  assert (_id <$> rows_with_token (id_tokenIdentifier identity)
                                  (serve_all rqs db1).2 = [i]) as Hids'.
  { revert Hids. apply (serve_all_ind
      (fun d => _id <$> rows_with_token (id_tokenIdentifier identity) d = [i])).
    intros rq d. by apply serve_keeps_ids. }
  rewrite <- Ht in Hids'.
  destruct (put_cases (Some identity') (serve_all rqs db1).2)
    as [Ha|who Ha H|who u Ha H Hn|who u Ha H Hn|who u v rest Ha H];
    cbn; try done; injection Ha as ->; rewrite H in Hids'; cbn in Hids';
    congruence.
Qed.

Lemma put_id_is_stable_witness :
  let rqs := [put_as carol; put_as bob; mkRequest CallList None;
              put_as (mkIdentity "abc" None)] in
  let db1 := db_after (addUser.put (Some alice) empty_db) in
  outcome (addUser.put (Some alice) empty_db) = Returned 1 /\
  id_tokenIdentifier alicia = id_tokenIdentifier alice /\
  outcome (addUser.put (Some alicia) (serve_all rqs db1).2) = Returned 1.
Proof.
  intros rqs db1. split; [reflexivity|]. split; [reflexivity|].
  exact (put_id_is_stable empty_db alice alicia rqs 1 eq_refl eq_refl).
Defined.

(** What [put] stores, [list] shows: after a [put] by an identity that
    matched at most one row, [list], called by anyone, returns a table in
    which the rows with the caller's [tokenIdentifier] are exactly one
    row, made of the id that [put] returned and the caller's name. *)
Theorem list_shows_put (db : Db) (identity : Identity) (auth : option Identity) :
  length (rows_with_token (id_tokenIdentifier identity) db) <= 1 ->
  let r := addUser.put (Some identity) db in
  exists i rows,
    outcome r = Returned i /\
    outcome (addUser.list auth (db_after r)) = Returned rows /\
    List.filter (eq_tokenIdentifier (id_tokenIdentifier identity)) rows =
      [mkUser i (id_name identity) (id_tokenIdentifier identity)].
Proof.
  intros Hle r. destruct (put_settles identity db Hle) as (u & Hout & Hrows & Hname).
  fold r in Hout, Hrows. exists (_id u), (users (db_after r)).
  split; [exact Hout|]. split.
  { unfold addUser.list, query. run_handler. by rewrite results_all. }
  change (rows_with_token (id_tokenIdentifier identity) (db_after r) =
          [mkUser (_id u) (id_name identity) (id_tokenIdentifier identity)]).
  rewrite Hrows. f_equal.
  assert (tokenIdentifier u = id_tokenIdentifier identity) as Ht.
  { apply (rows_with_token_elem _ (db_after r)). rewrite Hrows. by left. }
  destruct u as [ui un ut]. cbn in *. by subst.
Qed.

Lemma list_shows_put_witness :
  length (rows_with_token (id_tokenIdentifier alicia) two_users) <= 1 /\
  exists i rows,
    outcome (addUser.put (Some alicia) two_users) = Returned i /\
    outcome (addUser.list None (db_after (addUser.put (Some alicia) two_users)))
      = Returned rows /\
    List.filter (eq_tokenIdentifier (id_tokenIdentifier alicia)) rows =
      [mkUser i (id_name alicia) (id_tokenIdentifier alicia)].
Proof.
  assert (length (rows_with_token (id_tokenIdentifier alicia) two_users) <= 1)
    as H by (vm_compute; lia).
  split; [exact H|]. exact (list_shows_put two_users alicia None H).
Defined.

Lemma tokens_patch_rows i n rows :
  tokenIdentifier <$> patch_rows i n rows = tokenIdentifier <$> rows.
Proof.
  induction rows as [|u rows IH]; [done|]. cbn. f_equal; [|exact IH].
  apply tokenIdentifier_patched.
Qed.

Lemma row_has_token t db u rest :
  rows_with_token t db = u :: rest -> t ∈ tokenIdentifier <$> users db.
Proof.
  intros H. destruct (rows_with_token_elem t db u) as [Hu Ht].
  { rewrite H. by left. }
  apply list_elem_of_fmap. exists u. split; [done|]. by apply list_elem_of_In.
Qed.

Lemma serve_tokens rq db :
  tokenIdentifier <$> users (serve rq db).2 =
    match caller_token rq with
    | Some t => enroll (tokenIdentifier <$> users db) t
    | None => tokenIdentifier <$> users db
    end.
Proof.
  rewrite serve_db. unfold caller_token. destruct (req_call rq); [done..|].
  destruct (put_cases (req_auth rq) db)
    as [Ha|identity Ha H|identity u Ha H Hn|identity u Ha H Hn|identity u v rest Ha H];
    rewrite Ha; cbn; [done|..]; unfold enroll.
  - rewrite bool_decide_eq_false_2; [by rewrite fmap_app|].
    by apply no_row_with_token.
  - rewrite bool_decide_eq_true_2; [done|]. by apply (row_has_token _ _ u []).
  - rewrite tokens_patch_rows.
    rewrite bool_decide_eq_true_2; [done|]. by apply (row_has_token _ _ u []).
  - rewrite bool_decide_eq_true_2; [done|]. by apply (row_has_token _ _ u (v :: rest)).
Qed.

(** The column of [tokenIdentifier]s is the list of callers in order of
    first appearance: after any sequence of calls it is the old column
    with the callers of the authenticated [put]s enrolled one by one, each
    new one last and each known one not again. *)
Theorem tokens_enrolled (rqs : list Request) (db : Db) :
  tokenIdentifier <$> users (serve_all rqs db).2 =
    foldl enroll (tokenIdentifier <$> users db) (omap caller_token rqs).
Proof.
  revert db. induction rqs as [|rq rqs IH]; intros db; [done|].
  cbn. pose proof (serve_tokens rq db) as H1.
  destruct (serve rq db) as [r db1]. cbn in H1.
  specialize (IH db1). destruct (serve_all rqs db1) as [rs db2].
  cbn in IH |- *. rewrite IH, H1. by destruct (caller_token rq).
Qed.

(** The stored name of an identity is the name of its latest [put],
    whatever the others do afterwards: on a database that satisfies the
    invariant, after a [put] by an identity and any calls in which no
    [put] is made under its [tokenIdentifier], exactly one row carries
    the [tokenIdentifier], with the name of that [put].  Document ids are
    taken to identify documents. *)
Theorem name_is_latest_put (before after : list Request) (identity : Identity)
    (db : Db) :
  invariant db ->
  ids_unique db ->
  forallb (fun rq => negb (is_put_by (id_tokenIdentifier identity) rq)) after
    = true ->
  exists u,
    rows_with_token (id_tokenIdentifier identity)
                    (serve_all (before ++ put_as identity :: after) db).2 = [u] /\
    name u = id_name identity.
Proof.
  intros Hinv Hids Hafter. rewrite serve_all_app.
  pose proof (serve_all_invariant before db Hinv) as Hinv1.
  pose proof (serve_all_ids_unique before db Hids) as Hids1.
  destruct (serve_all before db) as [rs db1]. cbn in Hinv1, Hids1 |- *.
  destruct (put_settles identity db1 (Hinv1 _)) as (u & _ & Hrows & Hname).
  pose proof (put_preserves_ids_unique (Some identity) db1 Hids1) as Hids2.
  pose proof (serve_all_frame (id_tokenIdentifier identity) after _ Hids2 Hafter)
    as Hframe.
  destruct (serve_all after _) as [rs2 db3]. cbn in Hframe |- *.
  exists u. by rewrite Hframe.
Qed.

Lemma name_is_latest_put_witness :
  let before := [put_as alice; mkRequest CallList None] in
  let after := [put_as carol; put_as (mkIdentity "xyz" (Some "Robert"));
                mkRequest CallPut None; mkRequest CallMe (Some alice)] in
  invariant two_users /\
  ids_unique two_users /\
  forallb (fun rq => negb (is_put_by (id_tokenIdentifier alicia) rq)) after
    = true /\
  exists u,
    rows_with_token (id_tokenIdentifier alicia)
                    (serve_all (before ++ put_as alicia :: after) two_users).2
      = [u] /\
    name u = id_name alicia.
Proof.
  intros before after.
  assert (invariant two_users) as Hinv
    by (apply invariantb_spec; vm_compute; reflexivity).
  assert (ids_unique two_users) as Hids
    by (apply (bool_decide_unpack _); vm_compute; exact I).
  split; [exact Hinv|]. split; [exact Hids|]. split; [reflexivity|].
  exact (name_is_latest_put before after alicia two_users Hinv Hids eq_refl).
Defined.

(** ** The audio worklet *)

Section SpeechProcessorProperties.
Context {Sample : Type}.
Implicit Types (input : list (@SpeechProcessor.Channel Sample)).
Implicit Types (inputs outputs : list (list (@SpeechProcessor.Channel Sample))).

Lemma copy_channels_upto input k :
  k <= length input ->
  foldl (fun output channel =>
           SpeechProcessor.js_set channel (input !! channel) output)
        [] (seq 0 k) = Some <$> take k input.
Proof.
  induction k as [|k IH]; intros Hk; [done|].
  rewrite seq_S, foldl_app, IH by lia. cbn.
  destruct (lookup_lt_is_Some_2 input k ltac:(lia)) as [c Hc].
  rewrite (take_S_r _ _ _ Hc), fmap_app, Hc. cbn.
  unfold SpeechProcessor.js_set.
  rewrite length_fmap, length_take, Nat.min_l by lia.
  rewrite Nat.ltb_irrefl, Nat.sub_diag. done.
Qed.

(** The copy loop of [process] builds an array without holes that holds
    the channels of the input, all of them, in their order. *)
Theorem copy_channels_copies input :
  SpeechProcessor.copy_channels input = Some <$> input.
Proof.
  unfold SpeechProcessor.copy_channels.
  rewrite copy_channels_upto by lia. by rewrite firstn_all.
Qed.

Lemma js_get_first input :
  SpeechProcessor.js_get (Some <$> input) 0 = head input.
Proof. by destruct input. Qed.

(** With at least one input, [process] returns [true] and posts one
    message: the first channel of the first input, or [undefined] when
    that input has no channel.  The other channels and inputs change
    nothing, and the output buffers are left as they were. *)
Theorem process_posts_first_channel input inputs outputs
    (posted : list (@SpeechProcessor.Value Sample)) :
  SpeechProcessor.process (input :: inputs) outputs posted =
    SpeechProcessor.mkProcessed (inr true) (posted ++ [head input]) outputs.
Proof.
  unfold SpeechProcessor.process. cbn.
  by rewrite copy_channels_copies, js_get_first.
Qed.

(** [process] throws exactly when it is given no input at all, and then
    nothing is posted; in every other case it returns [true], never
    [false]. *)
Theorem process_throws_iff inputs outputs
    (posted : list (@SpeechProcessor.Value Sample)) :
  let r := SpeechProcessor.process inputs outputs posted in
  (SpeechProcessor.returned r = inl SpeechProcessor.TypeError <-> inputs = []) /\
  (SpeechProcessor.returned r = inr true <-> inputs <> []) /\
  (inputs = [] -> SpeechProcessor.port r = posted) /\
  length (SpeechProcessor.port r) <= S (length posted).
Proof.
  destruct inputs as [|input inputs]; cbn.
  - repeat split; try done; try discriminate. lia.
  - rewrite length_app. cbn. repeat split; try done; try discriminate. lia.
Qed.

(** Over a run of render quanta that each bring at least one input, the
    processor stays alive, and the port receives one message per quantum,
    in order: the first channel of the first input of each. *)
Theorem render_posts_each_quantum
    (quanta : list (list (list (@SpeechProcessor.Channel Sample))))
    outputs (posted : list (@SpeechProcessor.Value Sample)) :
  Forall (fun inputs => inputs <> []) quanta ->
  SpeechProcessor.render quanta outputs posted =
    (replicate (length quanta) (inr true),
     posted ++ (SpeechProcessor.first_channel <$> quanta)).
Proof.
  revert posted. induction quanta as [|inputs quanta IH]; intros posted Hne.
  { cbn. by rewrite app_nil_r. }
  apply Forall_cons in Hne as [Hin Hne]. destruct inputs as [|input inputs]; [done|].
  cbn [SpeechProcessor.render]. rewrite process_posts_first_channel. cbn.
  rewrite (IH _ Hne). by rewrite <- app_assoc.
Qed.
End SpeechProcessorProperties.

(** Two quanta of a stereo input and one of an input without channels. *)
Lemma render_posts_each_quantum_witness :
  let quanta := [[[[1; 2]; [3; 4]]]; [[[5; 6]; [7; 8]]; [[9; 9]]]; [[]]] in
  Forall (fun inputs => inputs <> []) quanta /\
  SpeechProcessor.render quanta [] [] =
    ([inr true; inr true; inr true], [Some [1; 2]; Some [5; 6]; None]).
Proof.
  intros quanta.
  assert (Forall (fun inputs => inputs <> []) quanta) as H
    by (repeat constructor; discriminate).
  split; [exact H|]. exact (render_posts_each_quantum quanta [] [] H).
Defined.
